(** * Jacobi, constant-SOR and Chebyshev-SOR iterations of [Jacobi.ipynb]

    A shallow embedding of the notebook's solver core, and the properties
    of it that the specification states.

    - Tensors are MathComp matrices over a real field [F]: an [n x n]
      tensor is an ['M[F]_n], an [n x 1] tensor a column ['cV[F]_n], and
      [@] is the matrix product [*m].  Arithmetic there is exact.
    - Where a property depends on rounding, overflow or the conversion of
      integers, the code is modelled over floating-point numbers: the
      Chebyshev root over Python's 64-bit floats in [Float64], class
      Jacobi over 32-bit tensors in [Float32].
    - [math.cos], [math.pi] and the square root inside [torch.norm] are
      parameters of the development.
    - The global random generator of torch is an explicit state [rng],
      threaded through every call of [torch.normal].
    - A Python exception is a value [Raise e] of the type [result]. *)

From Stdlib Require Import ZArith Floats.
From HB Require Import structures.
From mathcomp Require Import boot order algebra.
From mathcomp Require Import lra.

Set Implicit Arguments.
Unset Strict Implicit.
Unset Printing Implicit Defensive.

Import Order.TTheory GRing.Theory Num.Theory.
Local Open Scope ring_scope.

(** ** Exceptions *)

(** The exceptions the notebook's code can raise: Python's
    [ZeroDivisionError] (a float division or an integer modulo by zero) and
    the [RuntimeError] of [torch.inverse] on a singular matrix; and, seen
    only with floating-point numbers, [OverflowError] (an integer too large
    to convert to a float) and [ValueError] ([math.cos] of an infinity). *)
Inductive exn : Type :=
  | ZeroDivisionError
  | RuntimeError
  | OverflowError
  | ValueError.

Inductive result (A : Type) : Type :=
  | Ok (a : A)
  | Raise (e : exn).

Arguments Ok {A} a.
Arguments Raise {A} e.

Definition rbind (A B : Type) (r : result A) (f : A -> result B) : result B :=
  match r with
  | Ok a => f a
  | Raise e => Raise e
  end.

Declare Scope py_scope.
Delimit Scope py_scope with py.
Notation "x <- r ;; k" := (rbind r (fun x => k))
  (at level 61, r at next level, right associativity) : py_scope.

Definition is_ok (A : Type) (r : result A) : bool :=
  if r is Ok _ then true else false.

(** ** Computations that use the random generator *)

Section StateMonad.

Variable rng : Type.

(** A computation reads the generator's state and either returns a value
    with the new state or raises. *)
Definition M (A : Type) : Type := rng -> result (A * rng).

Definition ret (A : Type) (a : A) : M A := fun s => Ok (a, s).

Definition bind (A B : Type) (m : M A) (f : A -> M B) : M B :=
  fun s => match m s with
           | Ok (a, s') => f a s'
           | Raise e => Raise e
           end.

Definition lift (A : Type) (r : result A) : M A :=
  fun s => match r with
           | Ok a => Ok (a, s)
           | Raise e => Raise e
           end.

(** [for i in range(num): x = body(i, x)], from the start value [x0]. *)
Definition for_range (X : Type) (num : nat) (body : nat -> X -> M X) (x0 : X)
  : M X :=
  foldl (fun acc i => bind acc (body i)) (ret x0) (iota 0 num).

End StateMonad.

Notation "x <~ m ;; k" := (bind m (fun x => k))
  (at level 61, m at next level, right associativity) : py_scope.

(** ** Python floats

    A Python float is an IEEE 754 binary64 number: Rocq's primitive [float].
    The definitions of this module are those of the Chebyshev root over
    these numbers, with rounding, infinities and the conversions of Python
    integers as Python has them. [math.cos] is a parameter. *)

(** Python integers are the integers [Z]. *)
Delimit Scope Z_scope with pyint.

Module Float64.

Local Open Scope float_scope.
Local Open Scope py_scope.

(** [math.pi]. *)
Definition pi : float := 0x1.921fb54442d18p+1.

(** Conversion of a Python integer in [float * int] and [float / int]:
    rounded to the nearest float, ties to even; [OverflowError] when the
    integer is beyond the largest float. *)
Definition float_of_int (z : Z) : result float :=
  let x := SF2Prim (binary_normalize prec emax z 0 false) in
  if is_infinity x then Raise OverflowError else Ok x.

(** Python's [x / y] on floats raises on a zero divisor, [0.0] or [-0.0]. *)
Definition pydiv (x y : float) : result float :=
  if y =? 0 then Raise ZeroDivisionError else Ok (x / y).

(** Python's [i % T] on integers: the result has the sign of [T]. *)
Definition pymod (i T : Z) : result Z :=
  if (T =? 0)%pyint then Raise ZeroDivisionError else Ok (i mod T)%pyint.

Section Schedule.

(** [math.cos] on the finite floats. *)
Variable cos : float -> float.

(** [math.cos(t)] raises [ValueError] on an infinity. *)
Definition math_cos (t : float) : result float :=
  if is_infinity t then Raise ValueError else Ok (cos t).

(** [c_root(k, a, b, T)]: the two integers [2*k+1] and [2*T] are converted
    where they meet a float, in the order of evaluation. *)
Definition c_root (k : Z) (a b : float) (T : Z) : result float :=
  n1 <- float_of_int (2 * k + 1) ;;
  n2 <- float_of_int (2 * T) ;;
  t <- pydiv (pi * n1) n2 ;;
  c <- math_cos t ;;
  Ok ((a + b) / 2 + ((b - a) / 2) * c).

(** The globals [lmin] and [lmax]. *)
Variables lmin lmax : float.

(** [gamma = 1.0/c_root(i % T, lmin, lmax, T)]. *)
Definition Chebychev_gamma (i T : Z) : result float :=
  j <- pymod i T ;;
  c <- c_root j lmin lmax T ;;
  pydiv 1 c.

End Schedule.

End Float64.

(** ** Tensors of 32-bit floats

    The tensors of the notebook hold IEEE 754 binary32 numbers: the
    [spec_float]s with a 24-bit mantissa and the exponent bound 128, with
    the operations of the standard library's specification of floating
    point. This module has class Jacobi over these numbers. *)

Module Float32.

Definition prec : Z := 24.
Definition emax : Z := 128.

Definition fadd : spec_float -> spec_float -> spec_float := SFadd prec emax.
Definition fsub : spec_float -> spec_float -> spec_float := SFsub prec emax.
Definition fmul : spec_float -> spec_float -> spec_float := SFmul prec emax.
Definition fdiv : spec_float -> spec_float -> spec_float := SFdiv prec emax.

Definition zero : spec_float := S754_zero false.
Definition one : spec_float := S754_finite false 8388608 (-23).

Definition is_zero (x : spec_float) : bool :=
  if x is S754_zero _ then true else false.

Definition is_finite (x : spec_float) : bool :=
  match x with
  | S754_zero _ | S754_finite _ _ _ => true
  | _ => false
  end.

Section Tensors.

Variable n : nat.

Variable rng : Type.

(** [torch.normal(torch.zeros(n,1), std=1.0)] in the state [s]. *)
Variable normal : rng -> 'cV[spec_float]_n * rng.

Local Open Scope py_scope.

(** [A - B], entry by entry. *)
Definition sub (m p : nat) (A B : 'M[spec_float]_(m, p))
  : 'M[spec_float]_(m, p) :=
  \matrix_(i, j) fsub (A i j) (B i j).

(** [A @ B]: entry (i, k) is the sum over j of A[i][j] * B[j][k], added up
    from 0.0 in the order of j. *)
Definition matmul (m p r : nat) (A : 'M[spec_float]_(m, p))
  (B : 'M[spec_float]_(p, r)) : 'M[spec_float]_(m, r) :=
  \matrix_(i, k)
    foldl (fun acc j => fadd acc (fmul (A i j) (B j k))) zero (enum 'I_p).

(** [torch.diagonal(P)] and [torch.diag_embed(d)]. *)
Definition diagonal (P : 'M[spec_float]_n) : 'rV[spec_float]_n :=
  \row_i P i i.

Definition diag_embed (d : 'rV[spec_float]_n) : 'M[spec_float]_n :=
  \matrix_(i, j) if i == j then d 0 i else zero.

(** [torch.inverse(D)] on a diagonal matrix, the only argument it is given:
    the pivots of the LU factorisation are the diagonal entries; a pivot
    that is zero raises [RuntimeError], otherwise the diagonal of the
    result holds the reciprocals 1/D[i][i], rounded, and the rest zeros. *)
Definition inverse (D : 'M[spec_float]_n) : result 'M[spec_float]_n :=
  if [exists i, is_zero (D i i)] then Raise RuntimeError
  else Ok (\matrix_(i, j) if i == j then fdiv one (D i i) else zero).

Record Jacobi : Type := MkJacobi {
  J_R : 'M[spec_float]_n;
  J_Dinv : 'M[spec_float]_n;
  J_b : 'cV[spec_float]_n
}.

(** [Jacobi.__init__(self, P, b)]. *)
Definition Jacobi_init (P : 'M[spec_float]_n) (b : 'cV[spec_float]_n)
  : result Jacobi :=
  let D := diag_embed (diagonal P) in
  let R := sub P D in
  Dinv <- inverse D ;;
  Ok (MkJacobi R Dinv b).

(** The body of the loop of [Jacobi.forward]. *)
Definition Jacobi_body (self : Jacobi) (i : nat) (x : 'cV[spec_float]_n)
  : M rng 'cV[spec_float]_n :=
  ret (matmul (J_Dinv self) (sub (J_b self) (matmul (J_R self) x))).

(** [Jacobi.forward(self, num_itr)]. *)
Definition Jacobi_forward (self : Jacobi) (num_itr : nat)
  : M rng 'cV[spec_float]_n :=
  x <~ (fun s => Ok (normal s)) ;;
  for_range num_itr (Jacobi_body self) x.

End Tensors.

End Float32.

(** ** An instance over the rationals

    The development is parametric in the field, in the cosine and the
    square root, and in the generator. The data below instantiate the
    parameters over [rat], to check the hypotheses of the theorems on
    concrete systems: [cosQ] is a rational function with values in [-1, 1]
    and [normalQ] a counter that hands out consecutive numbers. *)

Definition cosQ (t : rat) : rat := (1 - t ^+ 2) / (1 + t ^+ 2).

Definition piQ : rat := 22 / 7.

Definition normalQ (n : nat) (s : nat) : 'cV[rat]_n * nat :=
  (\col_i (s + i)%:R, (s + n)%N).

(** The systems [[2,0],[0,2]] and [[0,1],[1,2]], and the 1 x 1 system
    P = [[1]], q = [1]. *)
Definition P_two : 'M[rat]_2 := 2%:M.

Definition P_zero_corner : 'M[rat]_2 := \matrix_(i, j) (i + j)%:R.

Definition P_one : 'M[rat]_1 := 1%:M.

Definition q_one : 'cV[rat]_1 := const_mx 1.

(** *** Floating-point data *)

(** A stand-in for the cosine on floats, to run the schedule on data. *)
Definition cos64 (t : float) : float := (1 - t * t / 2)%float.

(** The system [[2,0],[0,2]] in 32-bit floats, and a generator that always
    draws the vector of ones. *)
Definition two32 : spec_float := S754_finite false 8388608 (-22).

Definition P_two32 : 'M[spec_float]_2 :=
  \matrix_(i, j) if i == j then two32 else Float32.zero.

Definition normal32 (n : nat) (s : nat) : 'cV[spec_float]_n * nat :=
  (const_mx Float32.one, s.+1).

(** The 32-bit float nearest to 1e-40, 71362 * 2^-149, a subnormal number
    whose reciprocal is beyond the largest 32-bit float. *)
Definition tiny32 : spec_float := S754_finite false 71362 (-149).

Definition P_tiny32 : 'M[spec_float]_1 := const_mx tiny32.

(** ** The notebook *)

Section Notebook.

Variable F : realFieldType.

(** [math.cos] and [math.pi]. *)
Variable cos : F -> F.
Variable pi : F.

(** The square root of [torch.norm]. *)
Variable sqrt : F -> F.

(** The dimension [n] of the system. *)
Variable n : nat.

(** The state of torch's global generator; [normal s] is
    [torch.normal(torch.zeros(n,1), std=1.0)] in the state [s]: the vector
    drawn and the state afterwards. *)
Variable rng : Type.
Variable normal : rng -> 'cV[F]_n * rng.

Local Open Scope py_scope.

(** *** Python and torch primitives *)

(** Python's [x / y] on floats raises on a zero divisor. *)
Definition pydiv (x y : F) : result F :=
  if y == 0 then Raise ZeroDivisionError else Ok (x / y).

(** Python's [i % T] on non-negative integers. *)
Definition pymod (i T : nat) : result nat :=
  if T == 0%N then Raise ZeroDivisionError else Ok (i %% T)%N.

(** [torch.diagonal(P)] and [torch.diag_embed(d)]. *)
Definition diagonal (P : 'M[F]_n) : 'rV[F]_n := \row_i P i i.

Definition diag_embed (d : 'rV[F]_n) : 'M[F]_n := diag_mx d.

(** [torch.inverse(A)]: the inverse of a square matrix; on a singular
    matrix the LU factorisation meets a zero pivot and torch raises
    [RuntimeError]. *)
Definition inverse (A : 'M[F]_n) : result 'M[F]_n :=
  if A \in unitmx then Ok (invmx A) else Raise RuntimeError.

(** [torch.norm(r)] of an [n x 1] tensor: the Euclidean norm. *)
Definition norm (r : 'cV[F]_n) : F := sqrt (\sum_i r i 0 ^+ 2).

(** [torch.normal(torch.zeros(n,1), std=1.0)] as a computation. *)
Definition draw : M rng 'cV[F]_n := fun s => Ok (normal s).

(** *** class Jacobi *)

Record Jacobi : Type := MkJacobi {
  J_R : 'M[F]_n;
  J_Dinv : 'M[F]_n;
  J_b : 'cV[F]_n
}.

(** [Jacobi.__init__(self, P, b)]. *)
Definition Jacobi_init (P : 'M[F]_n) (b : 'cV[F]_n) : result Jacobi :=
  let D := diag_embed (diagonal P) in
  let R := P - D in
  Dinv <- inverse D ;;
  Ok (MkJacobi R Dinv b).

(** The body of the loop of [Jacobi.forward]. *)
Definition Jacobi_body (self : Jacobi) (i : nat) (x : 'cV[F]_n)
  : M rng 'cV[F]_n :=
  ret (J_Dinv self *m (J_b self - J_R self *m x)).

(** [Jacobi.forward(self, num_itr)]. *)
Definition Jacobi_forward (self : Jacobi) (num_itr : nat) : M rng 'cV[F]_n :=
  x <~ draw ;;
  for_range num_itr (Jacobi_body self) x.

(** *** class SOR_Jacobi *)

Record SOR_Jacobi : Type := MkSOR_Jacobi {
  S_R : 'M[F]_n;
  S_Dinv : 'M[F]_n;
  S_b : 'cV[F]_n;
  S_omega : F
}.

(** [SOR_Jacobi.__init__(self, P, b, omega)]. *)
Definition SOR_Jacobi_init (P : 'M[F]_n) (b : 'cV[F]_n) (omega : F)
  : result SOR_Jacobi :=
  let D := diag_embed (diagonal P) in
  let R := P - D in
  Dinv <- inverse D ;;
  Ok (MkSOR_Jacobi R Dinv b omega).

Definition SOR_Jacobi_body (self : SOR_Jacobi) (i : nat) (x : 'cV[F]_n)
  : M rng 'cV[F]_n :=
  let tmp := S_Dinv self *m (S_b self - S_R self *m x) in
  ret (x + S_omega self *: (tmp - x)).

(** [SOR_Jacobi.forward(self, num_itr)]. *)
Definition SOR_Jacobi_forward (self : SOR_Jacobi) (num_itr : nat)
  : M rng 'cV[F]_n :=
  x <~ draw ;;
  for_range num_itr (SOR_Jacobi_body self) x.

(** *** Chebyshev roots and class Chebychev_SOR_Jacobi *)

(** [c_root(k, a, b, T)]; the division by [2*T] is the only operation that
    can raise. *)
Definition c_root (k : nat) (a b : F) (T : nat) : result F :=
  t <- pydiv (pi * (2 * k + 1)%:R) (2 * T)%:R ;;
  Ok ((a + b) / 2 + ((b - a) / 2) * cos t).

(** The globals [lmin] and [lmax] of the notebook. *)
Variables lmin lmax : F.

(** [gamma = 1.0/c_root(i % T, lmin, lmax, T)], the Chebyshev step of
    iteration [i]. *)
Definition Chebychev_gamma (i T : nat) : result F :=
  j <- pymod i T ;;
  c <- c_root j lmin lmax T ;;
  pydiv 1 c.

Record Chebychev_SOR_Jacobi : Type := MkChebychev_SOR_Jacobi {
  C_R : 'M[F]_n;
  C_Dinv : 'M[F]_n;
  C_b : 'cV[F]_n
}.

(** [Chebychev_SOR_Jacobi.__init__(self, P, b)]. *)
Definition Chebychev_SOR_Jacobi_init (P : 'M[F]_n) (b : 'cV[F]_n)
  : result Chebychev_SOR_Jacobi :=
  let D := diag_embed (diagonal P) in
  let R := P - D in
  Dinv <- inverse D ;;
  Ok (MkChebychev_SOR_Jacobi R Dinv b).

Definition Chebychev_SOR_Jacobi_body (self : Chebychev_SOR_Jacobi) (T : nat)
  (i : nat) (x : 'cV[F]_n) : M rng 'cV[F]_n :=
  let tmp := C_Dinv self *m (C_b self - C_R self *m x) in
  gamma <~ lift (Chebychev_gamma i T) ;;
  ret (x + gamma *: (tmp - x)).

(** [Chebychev_SOR_Jacobi.forward(self, num_itr, T)]. *)
Definition Chebychev_SOR_Jacobi_forward (self : Chebychev_SOR_Jacobi)
  (num_itr T : nat) : M rng 'cV[F]_n :=
  x <~ draw ;;
  for_range num_itr (Chebychev_SOR_Jacobi_body self T) x.


(** *** Plot functions

    A plot function computes the list [norm_list] and hands it, with
    [range(max_itr)], to [plt.plot]; the model returns the list. *)

(** The globals [max_itr] and [q] of the notebook. *)
Variable max_itr : nat.
Variable q : 'cV[F]_n.

(** [plot_pure_jacobi(P, q, color)]; its parameter [q] hides the global. *)
Definition plot_pure_jacobi (P : 'M[F]_n) (q : 'cV[F]_n) : M rng (seq F) :=
  jacobi <~ lift (Jacobi_init P q) ;;
  for_range max_itr
    (fun i norm_list =>
       r <~ Jacobi_forward jacobi i ;;
       ret (rcons norm_list (norm r)))
    [::].

(** [omega_opt = 2.0/(lmax+lmin)], the optimal constant SOR factor. *)
Definition omega_opt : result F := pydiv 2 (lmax + lmin).

(** [plot_sor_jacobi(P, b, color)]; the solver is built from the global [q],
    the parameter [b] is not used. *)
Definition plot_sor_jacobi (P : 'M[F]_n) (b : 'cV[F]_n) : M rng (seq F) :=
  omega <~ lift omega_opt ;;
  sor_jacobi <~ lift (SOR_Jacobi_init P q omega) ;;
  for_range max_itr
    (fun i norm_list =>
       r <~ SOR_Jacobi_forward sor_jacobi i ;;
       ret (rcons norm_list (norm r)))
    [::].

(** [plot_chebychev_sor_jacobi(T, P, b, label, color)]; again the solver is
    built from the global [q]. *)
Definition plot_chebychev_sor_jacobi (T : nat) (P : 'M[F]_n) (b : 'cV[F]_n)
  : M rng (seq F) :=
  chebychev_sor_jacobi <~ lift (Chebychev_SOR_Jacobi_init P q) ;;
  for_range max_itr
    (fun i c_norm_list =>
       r <~ Chebychev_SOR_Jacobi_forward chebychev_sor_jacobi i T ;;
       ret (rcons c_norm_list (norm r)))
    [::].

(** The generator's state after [k] calls of [torch.normal]. *)
Definition rng_after (k : nat) (s : rng) : rng :=
  iter k (fun s' => (normal s').2) s.

(** *** Generation of the matrix and the figure *)

(** [torch.normal(torch.zeros(n,n), 0.03)] in the state [s]: the matrix
    drawn and the state afterwards. *)
Variable normal_mx : rng -> 'M[F]_n * rng.

(** The globals that the generation cell binds. *)
Record Generated : Type := MkGenerated {
  G_M : 'M[F]_n;
  G_P : 'M[F]_n;
  G_D : 'M[F]_n;
  G_R : 'M[F]_n;
  G_Dinv : 'M[F]_n;
  G_B : 'M[F]_n
}.

(** The cell [M = torch.normal(...); M = M.t() @ M; P = M + torch.eye(n);
    D = ...; R = P - D; Dinv = torch.inverse(D); B = -Dinv @ R]. *)
Definition generate : M rng Generated :=
  M0 <~ (fun s => Ok (normal_mx s)) ;;
  let M1 := M0^T *m M0 in
  let P := M1 + 1%:M in
  let D := diag_embed (diagonal P) in
  let R := P - D in
  Dinv <~ lift (inverse D) ;;
  let B := (- Dinv) *m R in
  ret (MkGenerated M1 P D R Dinv B).

(** The last cell: the three curves of the figure, for the globals [P] and
    [q], in the order of the calls. *)
Definition figure (P : 'M[F]_n) : M rng (seq F * seq F * seq F) :=
  jacobi_curve <~ plot_pure_jacobi P q ;;
  sor_curve <~ plot_sor_jacobi P q ;;
  chebychev_curve <~ plot_chebychev_sor_jacobi 8 P q ;;
  ret (jacobi_curve, sor_curve, chebychev_curve).

(** *** The specification's vocabulary

    The definitions below follow the words of the specification, not the
    code: the three solver classes are one [StationaryIterator] with a
    relaxation strategy, and the Chebyshev schedule is a closed formula. *)

Inductive RelaxationStrategy : Type :=
  | NoRelaxation
  | Constant (omega : F)
  | Chebyshev (T : nat) (l_min l_max : F).

(** c(j) = (l_min+l_max)/2 + ((l_max-l_min)/2) cos(pi (2j+1)/(2T)). *)
Definition spec_c (j T : nat) (l_min l_max : F) : F :=
  (l_min + l_max) / 2
  + ((l_max - l_min) / 2) * cos (pi * (2 * j + 1)%:R / (2 * T)%:R).

(** gamma = 1 / c(k mod T). *)
Definition ChebyshevStepSchedule (k T : nat) (l_min l_max : F) : F :=
  1 / spec_c (k %% T) T l_min l_max.

(** One step: tmp = Dinv (q - R x), then the relaxation. *)
Definition StationaryIterator_step (Dinv R : 'M[F]_n) (q0 : 'cV[F]_n)
  (strategy : RelaxationStrategy) (i : nat) (x : 'cV[F]_n) : 'cV[F]_n :=
  let tmp := Dinv *m (q0 - R *m x) in
  match strategy with
  | NoRelaxation => tmp
  | Constant omega => x + omega *: (tmp - x)
  | Chebyshev T l_min l_max =>
      x + ChebyshevStepSchedule i T l_min l_max *: (tmp - x)
  end.

(** [num] steps from the iterate [x0]; the step index counts from 0. *)
Fixpoint StationaryIterator_run (Dinv R : 'M[F]_n) (q0 : 'cV[F]_n)
  (strategy : RelaxationStrategy) (x0 : 'cV[F]_n) (num : nat) : 'cV[F]_n :=
  match num with
  | 0%N => x0
  | k.+1 =>
      StationaryIterator_step Dinv R q0 strategy k
        (StationaryIterator_run Dinv R q0 strategy x0 k)
  end.

(** omega_opt = 2/(l_min+l_max). *)
Definition ConstantSORFactor (l_min l_max : F) : F := 2 / (l_min + l_max).



(** ** Properties *)

(** *** The loop and the monad *)

Lemma for_range0 (X : Type) (body : nat -> X -> M rng X) (x0 : X) :
  for_range 0 body x0 = ret x0.
Proof. by []. Qed.

Lemma for_rangeS (X : Type) (k : nat) (body : nat -> X -> M rng X) (x0 : X) :
  for_range k.+1 body x0 = bind (for_range k body x0) (body k).
Proof. by rewrite /for_range -addn1 iotaD foldl_cat add0n. Qed.

(** A loop whose body never raises and leaves the generator alone is the
    iteration of a function. *)
Lemma for_range_pure (X : Type) (f : nat -> X -> X) (body : nat -> X -> M rng X)
  (g : X -> nat -> X) (x0 : X) (num : nat) (s : rng) :
  (forall i x s', (i < num)%N -> body i x s' = Ok (f i x, s')) ->
  g x0 0%N = x0 ->
  (forall k, g x0 k.+1 = f k (g x0 k)) ->
  for_range num body x0 s = Ok (g x0 num, s).
Proof.
elim: num => [|k IH] Hbody g0 gS; first by rewrite for_range0 /ret g0.
have Hk i x s' : (i < k)%N -> body i x s' = Ok (f i x, s').
  by move=> Hi; apply: Hbody; apply: ltnW.
by rewrite for_rangeS /bind (IH Hk g0 gS) Hbody // gS.
Qed.

(** *** The splitting of P *)

Lemma diag_embed_diagonalE (P : 'M[F]_n) (i j : 'I_n) :
  diag_embed (diagonal P) i j = if i == j then P i i else 0.
Proof. by rewrite /diag_embed /diagonal !mxE; case: (i == j). Qed.

Lemma inverse_diag (d : 'rV[F]_n) :
  (forall i, d 0 i != 0) ->
  inverse (diag_embed d) = Ok (diag_mx (\row_i (d 0 i)^-1)).
Proof.
move=> d0; rewrite /inverse /diag_embed.
have H : diag_mx d *m diag_mx (\row_i (d 0 i)^-1) = 1%:M.
  rewrite mulmx_diag; apply/matrixP => i j; rewrite !mxE.
  by case: (i == j); rewrite ?mulr0n ?mulr1n // mulfV.
have [U _] := mulmx1_unit H.
by rewrite U -[invmx _]mulmx1 -H mulKmx.
Qed.

Lemma inverse_singular_diag (d : 'rV[F]_n) (i : 'I_n) :
  d 0 i = 0 -> inverse (diag_embed d) = Raise RuntimeError.
Proof.
move=> di; rewrite /inverse /diag_embed unitmxE det_diag unitfE.
by rewrite (bigD1 i) //= di mul0r eqxx.
Qed.

Lemma Jacobi_init_ok (P : 'M[F]_n) (b : 'cV[F]_n) :
  (forall i, P i i != 0) ->
  Jacobi_init P b =
    Ok (MkJacobi (P - diag_embed (diagonal P))
                 (diag_mx (\row_i (P i i)^-1)) b).
Proof.
move=> P0; rewrite /Jacobi_init inverse_diag /=; first by move=> i; rewrite mxE.
by congr (Ok (MkJacobi _ (diag_mx _) _)); apply/rowP => i; rewrite !mxE.
Qed.


Lemma SOR_Jacobi_init_ok (P : 'M[F]_n) (b : 'cV[F]_n) (omega : F) :
  (forall i, P i i != 0) ->
  SOR_Jacobi_init P b omega =
    Ok (MkSOR_Jacobi (P - diag_embed (diagonal P))
                     (diag_mx (\row_i (P i i)^-1)) b omega).
Proof.
move=> P0; rewrite /SOR_Jacobi_init inverse_diag /=; first by move=> i; rewrite mxE.
by congr (Ok (MkSOR_Jacobi _ (diag_mx _) _ _)); apply/rowP => i; rewrite !mxE.
Qed.

Lemma Chebychev_SOR_Jacobi_init_ok (P : 'M[F]_n) (b : 'cV[F]_n) :
  (forall i, P i i != 0) ->
  Chebychev_SOR_Jacobi_init P b =
    Ok (MkChebychev_SOR_Jacobi (P - diag_embed (diagonal P))
                               (diag_mx (\row_i (P i i)^-1)) b).
Proof.
move=> P0; rewrite /Chebychev_SOR_Jacobi_init inverse_diag /=; first by move=> i; rewrite mxE.
by congr (Ok (MkChebychev_SOR_Jacobi _ (diag_mx _) _)); apply/rowP => i; rewrite !mxE.
Qed.

Lemma residual_entry (P : 'M[F]_n) (i j : 'I_n) :
  (P - diag_embed (diagonal P)) i j = if i == j then 0 else P i j.
Proof.
rewrite /diag_embed /diagonal !mxE; case: eqP => [<-|_]; first by rewrite mulr1n subrr.
by rewrite mulr0n subr0.
Qed.


(** C6. If a diagonal entry of P is zero, every constructor raises: the
    matrix D is singular and [torch.inverse] refuses it; no matrix with
    infinite entries is produced. *)
Theorem C6_zero_diagonal_raises (P : 'M[F]_n) (b : 'cV[F]_n) (omega : F) :
  (exists i, P i i = 0) ->
  [/\ Jacobi_init P b = Raise RuntimeError,
      SOR_Jacobi_init P b omega = Raise RuntimeError
    & Chebychev_SOR_Jacobi_init P b = Raise RuntimeError].
Proof.
case=> i Pi.
have H : inverse (diag_embed (diagonal P)) = Raise RuntimeError.
  by apply: (@inverse_singular_diag _ i); rewrite mxE.
by rewrite /Jacobi_init /SOR_Jacobi_init /Chebychev_SOR_Jacobi_init H.
Qed.


(** *** The three loops against the specification's iterator *)

Lemma Jacobi_forward_run (self : Jacobi) (num_itr : nat) (s : rng) :
  Jacobi_forward self num_itr s =
    Ok (StationaryIterator_run (J_Dinv self) (J_R self) (J_b self)
          NoRelaxation (normal s).1 num_itr,
        (normal s).2).
Proof.
rewrite /Jacobi_forward /bind /draw; case: (normal s) => x0 s' /=.
exact: (for_range_pure (f := fun _ x => J_Dinv self *m (J_b self - J_R self *m x))).
Qed.

Lemma SOR_Jacobi_forward_run (self : SOR_Jacobi) (num_itr : nat) (s : rng) :
  SOR_Jacobi_forward self num_itr s =
    Ok (StationaryIterator_run (S_Dinv self) (S_R self) (S_b self)
          (Constant (S_omega self)) (normal s).1 num_itr,
        (normal s).2).
Proof.
rewrite /SOR_Jacobi_forward /bind /draw; case: (normal s) => x0 s' /=.
exact: (for_range_pure
  (f := fun i x => StationaryIterator_step (S_Dinv self) (S_R self) (S_b self)
                     (Constant (S_omega self)) i x)).
Qed.

Lemma natr2T_neq0 (T : nat) : (0 < T)%N -> ((2 * T)%:R : F) != 0.
Proof. by move=> T0; rewrite pnatr_eq0 muln_eq0 /= -lt0n. Qed.

Lemma c_root_spec (j T : nat) (a b : F) :
  (0 < T)%N -> c_root j a b T = Ok (spec_c j T a b).
Proof. by move=> T0; rewrite /c_root /pydiv (negbTE (natr2T_neq0 T0)). Qed.

Lemma c_root_T0 (j : nat) (a b : F) : c_root j a b 0 = Raise ZeroDivisionError.
Proof. by rewrite /c_root /pydiv muln0 eqxx. Qed.

Lemma Chebychev_gamma_spec (i T : nat) :
  (0 < T)%N -> spec_c (i %% T) T lmin lmax != 0 ->
  Chebychev_gamma i T = Ok (ChebyshevStepSchedule i T lmin lmax).
Proof.
move=> T0 c0; rewrite /Chebychev_gamma /pymod (gtn_eqF T0) /= c_root_spec //=.
by rewrite /pydiv (negbTE c0).
Qed.

Lemma Chebychev_SOR_Jacobi_forward_run (self : Chebychev_SOR_Jacobi)
  (num_itr T : nat) (s : rng) :
  (0 < T)%N -> (forall j, (j < T)%N -> spec_c j T lmin lmax != 0) ->
  Chebychev_SOR_Jacobi_forward self num_itr T s =
    Ok (StationaryIterator_run (C_Dinv self) (C_R self) (C_b self)
          (Chebyshev T lmin lmax) (normal s).1 num_itr,
        (normal s).2).
Proof.
move=> T0 c0.
rewrite /Chebychev_SOR_Jacobi_forward /bind /draw; case: (normal s) => x0 s' /=.
apply: (for_range_pure
  (f := fun i x => StationaryIterator_step (C_Dinv self) (C_R self) (C_b self)
                     (Chebyshev T lmin lmax) i x)) => // i x s1 _.
rewrite /Chebychev_SOR_Jacobi_body /bind /lift Chebychev_gamma_spec //.
by apply: c0; rewrite ltn_mod.
Qed.



(** *** The Chebyshev schedule *)

Lemma spec_c_gt0 (j T : nat) (a b : F) :
  0 < a -> a <= b -> (forall t, -1 <= cos t <= 1) -> 0 < spec_c j T a b.
Proof.
move=> a0 ab cosb; rewrite /spec_c.
have /andP [] := cosb (pi * (2 * j + 1)%:R / (2 * T)%:R).
by move: (cos _) => c c1 c2; nra.
Qed.

(** *** The constant SOR factor *)

Lemma omega_optE :
  omega_opt =
    if lmin + lmax == 0 then Raise ZeroDivisionError
    else Ok (2 / (lmin + lmax)).
Proof. by rewrite /omega_opt /pydiv [lmax + lmin]addrC. Qed.

(** C5. For bounds with lmin + lmax > 0 the factor computed is
    2/(lmin+lmax), and it is the factor the SOR solver is built with. *)
Theorem C5_constant_sor_factor (P : 'M[F]_n) (b : 'cV[F]_n) (s : rng) :
  0 < lmin + lmax ->
  omega_opt = Ok (2 / (lmin + lmax)) /\
  plot_sor_jacobi P b s =
    (sor_jacobi <~ lift (SOR_Jacobi_init P q (2 / (lmin + lmax))) ;;
     for_range max_itr
       (fun i norm_list =>
          r <~ SOR_Jacobi_forward sor_jacobi i ;;
          ret (rcons norm_list (norm r)))
       [::]) s.
Proof.
move=> l0; have E : omega_opt = Ok (2 / (lmin + lmax)).
  by rewrite omega_optE (negbTE (lt0r_neq0 l0)).
by split=> //; rewrite /plot_sor_jacobi /bind /lift E.
Qed.



(** *** Diagonal systems *)

Lemma diag_residual0 (P : 'M[F]_n) :
  is_diag_mx P -> P - diag_embed (diagonal P) = 0.
Proof.
move=> /is_diag_mxP dP; apply/matrixP => i j.
rewrite residual_entry [RHS]mxE; case: eqP => // /eqP ij.
by apply: dP; apply: contra ij => /eqP /val_inj ->.
Qed.

(** *** The error curves *)

Lemma rng_afterS (k : nat) (s : rng) :
  rng_after k.+1 s = (normal (rng_after k s)).2.
Proof. by []. Qed.

(** The loop of a plot function over a solver whose runs do not raise: run
    i starts from the state the runs before it left, draws its own vector
    there and returns [g i] of it. *)
Lemma plot_loop_curve (fwd : nat -> M rng 'cV[F]_n)
  (g : nat -> 'cV[F]_n -> 'cV[F]_n) (k : nat) (s : rng) :
  (forall i s', (i < k)%N -> fwd i s' = Ok (g i (normal s').1, (normal s').2)) ->
  for_range k (fun i norm_list => r <~ fwd i ;; ret (rcons norm_list (norm r)))
    [::] s
  = Ok ([seq norm (g i (normal (rng_after i s)).1) | i <- iota 0 k],
        rng_after k s).
Proof.
elim: k => [|k IH] H //.
have Hk i s' : (i < k)%N -> fwd i s' = Ok (g i (normal s').1, (normal s').2).
  by move=> Hi; apply: H; apply: ltnW.
have -> : iota 0 k.+1 = rcons (iota 0 k) k by rewrite -addn1 iotaD cats1.
by rewrite for_rangeS /bind (IH Hk) H // /ret map_rcons.
Qed.

(** The first entry of a curve that was computed. *)
Lemma plot_loop_head (fwd : nat -> M rng 'cV[F]_n) (k : nat) (s s' : rng)
  (l : seq F) :
  fwd 0%N s = Ok (normal s) ->
  for_range k.+1
    (fun i norm_list => r <~ fwd i ;; ret (rcons norm_list (norm r))) [::] s
  = Ok (l, s') ->
  ohead l = Some (norm (normal s).1).
Proof.
move=> H0; elim: k l s' => [|k IH] l s'.
  rewrite for_rangeS for_range0 /bind /ret H0.
  by case: (normal s) => x s1 [<- _].
rewrite for_rangeS {1}/bind.
case E: (for_range k.+1 _ _ s) => [[l1 s1]|e] //.
rewrite /bind /ret; case: (fwd k.+1 s1) => [[r s2]|e] // [<- _].
by have := IH _ _ E; case: l1 {E}.
Qed.

Lemma forward0 (jacobi : Jacobi) (sor_jacobi : SOR_Jacobi)
  (chebychev_sor_jacobi : Chebychev_SOR_Jacobi) (T : nat) (s : rng) :
  [/\ Jacobi_forward jacobi 0 s = Ok (normal s),
      SOR_Jacobi_forward sor_jacobi 0 s = Ok (normal s)
    & Chebychev_SOR_Jacobi_forward chebychev_sor_jacobi 0 T s = Ok (normal s)].
Proof.
rewrite /Jacobi_forward /SOR_Jacobi_forward /Chebychev_SOR_Jacobi_forward.
by rewrite /bind /draw; case: (normal s).
Qed.

(** C10. With num_itr = 0 the run of each solver returns the vector it drew,
    unchanged: the loop body, which holds the matrix products, is not
    executed, whatever R, Dinv, b and T are. So the entry at index 0 of an
    error curve is the norm of the first vector drawn. *)
Theorem C10_zero_steps_return_the_draw (jacobi : Jacobi)
  (sor_jacobi : SOR_Jacobi) (chebychev_sor_jacobi : Chebychev_SOR_Jacobi)
  (T : nat) (P : 'M[F]_n) (b : 'cV[F]_n) (s s' : rng) (l : seq F) :
  (0 < max_itr)%N ->
  plot_pure_jacobi P b s = Ok (l, s') \/
  plot_sor_jacobi P b s = Ok (l, s') \/
  plot_chebychev_sor_jacobi T P b s = Ok (l, s') ->
  [/\ Jacobi_forward jacobi 0 s = Ok (normal s),
      SOR_Jacobi_forward sor_jacobi 0 s = Ok (normal s),
      Chebychev_SOR_Jacobi_forward chebychev_sor_jacobi 0 T s = Ok (normal s)
    & ohead l = Some (norm (normal s).1)].
Proof.
move=> m0 Hl; have [H1 H2 H3] := forward0 jacobi sor_jacobi
  chebychev_sor_jacobi T s; split=> //.
case: Hl => [|[|]].
- rewrite /plot_pure_jacobi -(prednK m0) {1}/bind /lift.
  case: (Jacobi_init P b) => [j|e] //.
  by apply: (@plot_loop_head (Jacobi_forward j));
    have [] := forward0 j sor_jacobi chebychev_sor_jacobi T s.
- rewrite /plot_sor_jacobi -(prednK m0) {1}/bind /lift.
  case: omega_opt => [w|e] //; rewrite {1}/bind.
  case: (SOR_Jacobi_init P q w) => [j|e] //.
  by apply: (@plot_loop_head (SOR_Jacobi_forward j));
    have [] := forward0 jacobi j chebychev_sor_jacobi T s.
- rewrite /plot_chebychev_sor_jacobi -(prednK m0) {1}/bind /lift.
  case: (Chebychev_SOR_Jacobi_init P q) => [j|e] //.
  by apply: (@plot_loop_head (fun i => Chebychev_SOR_Jacobi_forward j i T));
    have [] := forward0 jacobi sor_jacobi j T s.
Qed.


Lemma Jacobi_init_inv (P : 'M[F]_n) (b : 'cV[F]_n) (jacobi : Jacobi) :
  Jacobi_init P b = Ok jacobi ->
  [/\ inverse (diag_embed (diagonal P)) = Ok (J_Dinv jacobi),
      J_R jacobi = P - diag_embed (diagonal P)
    & J_b jacobi = b].
Proof.
by rewrite /Jacobi_init; case: (inverse _) => [Dinv|e] //= [<-].
Qed.

Lemma plot_pure_jacobi_curve (P : 'M[F]_n) (q0 : 'cV[F]_n) (jacobi : Jacobi)
  (s : rng) :
  Jacobi_init P q0 = Ok jacobi ->
  plot_pure_jacobi P q0 s =
    Ok ([seq norm (StationaryIterator_run (J_Dinv jacobi) (J_R jacobi) q0
                     NoRelaxation (normal (rng_after i s)).1 i)
           | i <- iota 0 max_itr],
        rng_after max_itr s).
Proof.
move=> Hj; have [_ _ Hb] := Jacobi_init_inv Hj.
rewrite /plot_pure_jacobi {1}/bind /lift Hj -Hb.
apply: (@plot_loop_curve (Jacobi_forward jacobi)
  (fun i x0 => StationaryIterator_run (J_Dinv jacobi) (J_R jacobi)
                 (J_b jacobi) NoRelaxation x0 i)) => i s' _.
exact: Jacobi_forward_run.
Qed.

Lemma plot_sor_jacobi_curve (P : 'M[F]_n) (q0 b : 'cV[F]_n) (jacobi : Jacobi)
  (omega : F) (s : rng) :
  Jacobi_init P q0 = Ok jacobi -> omega_opt = Ok omega ->
  plot_sor_jacobi P b s =
    Ok ([seq norm (StationaryIterator_run (J_Dinv jacobi) (J_R jacobi) q
                     (Constant omega) (normal (rng_after i s)).1 i)
           | i <- iota 0 max_itr],
        rng_after max_itr s).
Proof.
move=> Hj Hw; have [Hi HR _] := Jacobi_init_inv Hj.
rewrite /plot_sor_jacobi {1}/bind /lift Hw {1}/bind /SOR_Jacobi_init Hi /= -HR.
apply: (@plot_loop_curve
  (SOR_Jacobi_forward (MkSOR_Jacobi (J_R jacobi) (J_Dinv jacobi) q omega))
  (fun i x0 => StationaryIterator_run (J_Dinv jacobi) (J_R jacobi) q
                 (Constant omega) x0 i)) => i s' _.
exact: SOR_Jacobi_forward_run.
Qed.

Lemma plot_chebychev_sor_jacobi_curve (P : 'M[F]_n) (q0 b : 'cV[F]_n)
  (jacobi : Jacobi) (T : nat) (s : rng) :
  Jacobi_init P q0 = Ok jacobi ->
  (0 < T)%N -> (forall j, (j < T)%N -> spec_c j T lmin lmax != 0) ->
  plot_chebychev_sor_jacobi T P b s =
    Ok ([seq norm (StationaryIterator_run (J_Dinv jacobi) (J_R jacobi) q
                     (Chebyshev T lmin lmax) (normal (rng_after i s)).1 i)
           | i <- iota 0 max_itr],
        rng_after max_itr s).
Proof.
move=> Hj T0 c0; have [Hi HR _] := Jacobi_init_inv Hj.
rewrite /plot_chebychev_sor_jacobi {1}/bind /lift /Chebychev_SOR_Jacobi_init.
rewrite Hi /= -HR.
apply: (@plot_loop_curve
  (fun i => Chebychev_SOR_Jacobi_forward
              (MkChebychev_SOR_Jacobi (J_R jacobi) (J_Dinv jacobi) q) i T)
  (fun i x0 => StationaryIterator_run (J_Dinv jacobi) (J_R jacobi) q
                 (Chebyshev T lmin lmax) x0 i)) => i s' _.
exact: Chebychev_SOR_Jacobi_forward_run.
Qed.


(** *** The generated system *)

Lemma gram_diag_ge0 (M0 : 'M[F]_n) (i : 'I_n) : 0 <= (M0^T *m M0) i i.
Proof.
rewrite mxE; apply: sumr_ge0 => k _.
by rewrite mxE -expr2 sqr_ge0.
Qed.

Lemma generated_diag_ge1 (M0 : 'M[F]_n) (i : 'I_n) :
  1 <= (M0^T *m M0 + 1%:M) i i.
Proof. by rewrite mxE [X in _ + X]mxE eqxx mulr1n lerDr gram_diag_ge0. Qed.

Lemma generated_sym (M0 : 'M[F]_n) :
  (M0^T *m M0 + 1%:M)^T = M0^T *m M0 + 1%:M.
Proof. by rewrite linearD /= trmx_mul trmxK tr_scalar_mx. Qed.

Lemma generated_diag_neq0 (M0 : 'M[F]_n) (i : 'I_n) :
  (M0^T *m M0 + 1%:M) i i != 0.
Proof.
by apply: lt0r_neq0; apply: lt_le_trans (generated_diag_ge1 M0 i).
Qed.

Lemma generate_ok (s : rng) :
  generate s =
    Ok (let M0 := (normal_mx s).1 in
        let P := M0^T *m M0 + 1%:M in
        let D := diag_embed (diagonal P) in
        let Dinv := diag_mx (\row_i (P i i)^-1) in
        MkGenerated (M0^T *m M0) P D (P - D) Dinv ((- Dinv) *m (P - D)),
        (normal_mx s).2).
Proof.
rewrite /generate /bind /lift; case: (normal_mx s) => M0 s' /=.
rewrite inverse_diag; first by move=> i; rewrite mxE generated_diag_neq0.
have -> // : \row_i (diagonal (M0^T *m M0 + 1%:M) 0 i)^-1
             = \row_i ((M0^T *m M0 + 1%:M) i i)^-1.
by apply/rowP => i; rewrite !mxE.
Qed.

(** X1. The generation cell never raises: whatever matrix is drawn, P is
    M^T M + I, which is symmetric with every diagonal entry at least 1, so
    D is invertible; the cell binds R and Dinv to what the three
    constructors compute from P, which succeed too. *)
Theorem generate_succeeds (s : rng) (b : 'cV[F]_n) (omega : F) :
  exists g : Generated,
    [/\ generate s = Ok (g, (normal_mx s).2),
        G_P g = (normal_mx s).1^T *m (normal_mx s).1 + 1%:M,
        (G_P g)^T = G_P g /\ (forall i, 1 <= G_P g i i),
        Jacobi_init (G_P g) b = Ok (MkJacobi (G_R g) (G_Dinv g) b)
      & SOR_Jacobi_init (G_P g) b omega
          = Ok (MkSOR_Jacobi (G_R g) (G_Dinv g) b omega) /\
        Chebychev_SOR_Jacobi_init (G_P g) b
          = Ok (MkChebychev_SOR_Jacobi (G_R g) (G_Dinv g) b)].
Proof.
eexists; split; first exact: generate_ok.
- by [].
- by split; [exact: generated_sym | exact: generated_diag_ge1].
- by apply: Jacobi_init_ok => i; exact: generated_diag_neq0.
- rewrite SOR_Jacobi_init_ok ?Chebychev_SOR_Jacobi_init_ok //.
  + by move=> i; exact: generated_diag_neq0.
  + by move=> i; exact: generated_diag_neq0.
Qed.

(** *** Equal bounds *)




(** *** A period of zero *)

Lemma for_range_raise (X : Type) (body : nat -> X -> M rng X) (e : exn)
  (x0 : X) (k : nat) (s : rng) :
  (forall x s', body 0%N x s' = Raise e) ->
  for_range k.+1 body x0 s = Raise e.
Proof.
move=> H; elim: k => [|k IH]; first by rewrite for_rangeS /bind /= H.
by rewrite for_rangeS /bind IH.
Qed.

Lemma plot_loop_raise (fwd : nat -> M rng 'cV[F]_n) (e : exn) (k : nat)
  (s : rng) :
  fwd 0%N s = Ok (normal s) ->
  (forall s', fwd 1%N s' = Raise e) ->
  for_range k.+2
    (fun i norm_list => r <~ fwd i ;; ret (rcons norm_list (norm r))) [::] s
  = Raise e.
Proof.
move=> H0 H1; elim: k => [|k IH]; last by rewrite for_rangeS /bind IH.
rewrite !for_rangeS for_range0 /bind /ret H0.
by case: (normal s) => x s'; rewrite H1.
Qed.

(** X7. With the period T = 0 the first step of the Chebyshev solver
    raises ZeroDivisionError, at [i % T]: a run of one step or more raises,
    and so does the plot function whenever max_itr >= 2 and the
    constructor succeeds (its run of 0 steps succeeds, its run of 1 step
    raises). *)
Theorem chebyshev_period_zero (self : Chebychev_SOR_Jacobi) (P : 'M[F]_n)
  (b : 'cV[F]_n) (num_itr : nat) (s : rng) :
  Chebychev_SOR_Jacobi_forward self num_itr.+1 0 s = Raise ZeroDivisionError
  /\ ((1 < max_itr)%N -> (forall i, P i i != 0) ->
      plot_chebychev_sor_jacobi 0 P b s = Raise ZeroDivisionError).
Proof.
have H0 (c : Chebychev_SOR_Jacobi) k s1 :
  Chebychev_SOR_Jacobi_forward c k.+1 0 s1 = Raise ZeroDivisionError.
  rewrite /Chebychev_SOR_Jacobi_forward /bind /draw.
  by case: (normal s1) => x s'; apply: for_range_raise.
split=> // m1 P0.
rewrite /plot_chebychev_sor_jacobi /bind /lift Chebychev_SOR_Jacobi_init_ok //.
rewrite -(subnK m1) addn2.
apply: (@plot_loop_raise (fun i => Chebychev_SOR_Jacobi_forward _ i 0)) => //.
rewrite /Chebychev_SOR_Jacobi_forward /bind /draw.
by case: (normal s).
Qed.

(** *** The figure *)

Lemma rng_afterD (k m : nat) (s : rng) :
  rng_after k (rng_after m s) = rng_after (m + k) s.
Proof. by rewrite /rng_after addnC iterD. Qed.

(** X10. The three curves of the figure come from 3 max_itr different
    draws: the plot functions run one after the other on the one
    generator, so run i of the SOR curve starts from draw number
    max_itr + i and run i of the Chebyshev curve from draw number
    2 max_itr + i, and the curves do not share a start vector. *)
Theorem figure_curves (P : 'M[F]_n) (jacobi : Jacobi) (omega : F) (s : rng) :
  Jacobi_init P q = Ok jacobi -> omega_opt = Ok omega ->
  (forall j, (j < 8)%N -> spec_c j 8 lmin lmax != 0) ->
  figure P s =
    Ok (([seq norm (StationaryIterator_run (J_Dinv jacobi) (J_R jacobi) q
                      NoRelaxation (normal (rng_after i s)).1 i)
            | i <- iota 0 max_itr],
         [seq norm (StationaryIterator_run (J_Dinv jacobi) (J_R jacobi) q
                      (Constant omega)
                      (normal (rng_after (max_itr + i) s)).1 i)
            | i <- iota 0 max_itr],
         [seq norm (StationaryIterator_run (J_Dinv jacobi) (J_R jacobi) q
                      (Chebyshev 8 lmin lmax)
                      (normal (rng_after (2 * max_itr + i) s)).1 i)
            | i <- iota 0 max_itr]),
        rng_after (3 * max_itr) s).
Proof.
move=> Hj Hw c0; rewrite /figure /bind.
rewrite (plot_pure_jacobi_curve s Hj) (plot_sor_jacobi_curve q _ Hj Hw).
rewrite (@plot_chebychev_sor_jacobi_curve _ q q _ 8 _ Hj isT c0) /ret.
have e2 : (max_itr + max_itr = 2 * max_itr)%N by rewrite addnn mul2n.
have e3 : (max_itr + max_itr + max_itr = 3 * max_itr)%N.
  by rewrite e2 addnC -mulSn.
rewrite !rng_afterD e3 e2; congr (Ok ((_, _, _), _)).
- by apply: eq_map => i; rewrite rng_afterD.
- by apply: eq_map => i; rewrite rng_afterD.
Qed.

(** X11. If a diagonal entry of P is zero no curve is computed: the Jacobi
    and the Chebyshev plot functions raise the RuntimeError of the
    constructor, the SOR one raises it too unless lmin + lmax = 0, where
    the division for the factor raises first; the figure raises
    RuntimeError at its first call. *)
Theorem plots_raise_on_zero_diagonal (P : 'M[F]_n) (b : 'cV[F]_n) (T : nat)
  (s : rng) :
  (exists i, P i i = 0) ->
  [/\ plot_pure_jacobi P b s = Raise RuntimeError,
      plot_sor_jacobi P b s
      = Raise (if lmin + lmax == 0 then ZeroDivisionError else RuntimeError),
      plot_chebychev_sor_jacobi T P b s = Raise RuntimeError
    & figure P s = Raise RuntimeError].
Proof.
case=> i Pi.
have H : inverse (diag_embed (diagonal P)) = Raise RuntimeError.
  by apply: (@inverse_singular_diag _ i); rewrite mxE.
have H1 c : plot_pure_jacobi P c s = Raise RuntimeError.
  by rewrite /plot_pure_jacobi /bind /lift /Jacobi_init H.
split=> //.
- rewrite /plot_sor_jacobi /bind /lift omega_optE; case: ifP => // _.
  by rewrite /SOR_Jacobi_init H.
- by rewrite /plot_chebychev_sor_jacobi /bind /lift /Chebychev_SOR_Jacobi_init H.
- by rewrite /figure /bind H1.
Qed.

End Notebook.

(** ** The Chebyshev schedule over Python floats *)

Section Float64Schedule.

Local Open Scope float_scope.

Variable cos : float -> float.
Variables lmin lmax : float.

Lemma pymod_mod (i T : Z) :
  Float64.pymod (i mod T) T = Float64.pymod i T.
Proof.
rewrite /Float64.pymod; case: Z.eqb_spec => // T0.
by rewrite Z.mod_mod.
Qed.

Lemma Chebychev_gamma_mod (i T : Z) :
  Float64.Chebychev_gamma cos lmin lmax (i mod T) T
  = Float64.Chebychev_gamma cos lmin lmax i T.
Proof.
rewrite /Float64.Chebychev_gamma pymod_mod /Float64.pymod.
by case: Z.eqb_spec => // T0; rewrite /= Z.mod_mod.
Qed.

Lemma float_of_int0 : Float64.float_of_int 0 = Ok 0.
Proof. by vm_compute. Qed.

(** C2, as the code has it. The step of iteration k is the step of
    iteration k mod T, the same float or the same exception. Where the two
    integers convert to floats n1 and n2, n2 is not zero and the angle
    pi n1 / n2 is finite, the step is 1 / c(k mod T) with
    c(j) = (lmin+lmax)/2 + ((lmax-lmin)/2) cos(pi (2j+1)/(2T)) computed in
    binary64, unless this c is zero, and then the division raises
    ZeroDivisionError. *)
Theorem C2_schedule_in_floating_point (k T : Z) :
  Float64.Chebychev_gamma cos lmin lmax k T
  = Float64.Chebychev_gamma cos lmin lmax (k mod T) T
  /\ forall n1 n2 : float,
       Float64.float_of_int (2 * (k mod T) + 1) = Ok n1 ->
       Float64.float_of_int (2 * T) = Ok n2 ->
       (n2 =? 0) = false ->
       is_infinity (Float64.pi * n1 / n2) = false ->
       Float64.Chebychev_gamma cos lmin lmax k T
       = let c := (lmin + lmax) / 2
                  + ((lmax - lmin) / 2) * cos (Float64.pi * n1 / n2) in
         if c =? 0 then Raise ZeroDivisionError else Ok (1 / c).
Proof.
split; first by rewrite Chebychev_gamma_mod.
move=> n1 n2 H1 H2 n20 fin.
have T0 : (T =? 0)%pyint = false.
  case: Z.eqb_spec => // T0; move: H2; rewrite T0 float_of_int0 => - [E].
  by rewrite -E in n20.
rewrite /Float64.Chebychev_gamma /Float64.pymod T0 /= /Float64.c_root H1 H2 /=.
by rewrite /Float64.pydiv n20 /= /Float64.math_cos fin.
Qed.

End Float64Schedule.

(** ** Diagonal systems over 32-bit floats *)

Section Float32Diagonal.

Import Float32.

Variable n : nat.
Variable rng : Type.
Variable normal : rng -> 'cV[spec_float]_n * rng.

Lemma fmul_zero_l (a b : spec_float) :
  is_zero a -> is_finite b -> is_zero (fmul a b).
Proof. by case: a => //; case: b. Qed.

Lemma fmul_zero_r (a b : spec_float) :
  is_finite a -> is_zero b -> is_zero (fmul a b).
Proof. by case: a => //; case: b. Qed.

Lemma fadd_zero (a b : spec_float) :
  is_zero a -> is_zero b -> is_zero (fadd a b).
Proof. by case: a => // [[]]; case: b => // [[]]. Qed.

Lemma fsub_zero (a b : spec_float) :
  is_zero a -> is_zero b -> is_zero (fsub a b).
Proof. by case: a => // [[]]; case: b => // [[]]. Qed.

Lemma fsub_self (a : spec_float) : is_finite a -> is_zero (fsub a a).
Proof.
case: a => // [[]|s m e] // _.
by rewrite /fsub /SFsub Z.sub_diag.
Qed.

Lemma is_zero_finite (a : spec_float) : is_zero a -> is_finite a.
Proof. by case: a. Qed.

Lemma foldl_fadd_zero (T : Type) (f : T -> spec_float) (l : seq T)
  (acc : spec_float) :
  is_zero acc -> (forall j, is_zero (f j)) ->
  is_zero (foldl (fun a j => fadd a (f j)) acc l).
Proof.
move=> + fz; elim: l acc => [|j l IH] acc az //=.
by apply: IH; apply: fadd_zero.
Qed.

Lemma matmul_zero (m p r : nat) (A : 'M[spec_float]_(m, p))
  (B : 'M[spec_float]_(p, r)) (i : 'I_m) (k : 'I_r) :
  (forall j, is_zero (fmul (A i j) (B j k))) -> is_zero (matmul A B i k).
Proof. by move=> H; rewrite mxE; apply: foldl_fadd_zero. Qed.

(** The entries of R for a diagonal P with a finite diagonal. *)
Lemma residual_zero (P : 'M[spec_float]_n) (i j : 'I_n) :
  (forall i j : 'I_n, i != j -> is_zero (P i j)) ->
  (forall i, is_finite (P i i)) ->
  is_zero (sub P (diag_embed (diagonal P)) i j).
Proof.
move=> dP fP; rewrite !mxE; case: eqP => [<-|/eqP ij].
  exact: fsub_self.
by apply: fsub_zero => //; apply: dP.
Qed.

(** One step of the loop on a system whose R and b are zero and whose Dinv
    is finite: a finite iterate becomes zero. *)
Lemma step_zero (R Dinv : 'M[spec_float]_n) (b x : 'cV[spec_float]_n)
  (i : 'I_n) :
  (forall i j, is_zero (R i j)) -> (forall i j, is_finite (Dinv i j)) ->
  (forall i, is_zero (b i 0)) -> (forall i, is_finite (x i 0)) ->
  is_zero (matmul Dinv (sub b (matmul R x)) i 0).
Proof.
move=> Rz Df bz xf; apply: matmul_zero => j; apply: fmul_zero_r => //.
rewrite mxE; apply: fsub_zero => //.
by apply: matmul_zero => k; apply: fmul_zero_l.
Qed.

Lemma init_diagonal (P : 'M[spec_float]_n) (q : 'cV[spec_float]_n) :
  (forall i, ~~ is_zero (P i i)) ->
  Jacobi_init P q
  = Ok (MkJacobi (sub P (diag_embed (diagonal P)))
          (\matrix_(i, j) if i == j then fdiv one (P i i) else zero) q).
Proof.
move=> P0; rewrite /Jacobi_init /inverse.
have D i : diag_embed (diagonal P) i i = P i i by rewrite mxE eqxx mxE.
have -> : [exists i, is_zero (diag_embed (diagonal P) i i)] = false.
  by apply/negbTE/existsPn => i; rewrite D.
congr (Ok (MkJacobi _ _ _)); apply/matrixP => i j; rewrite mxE [RHS]mxE.
by case: eqP => // _; rewrite D.
Qed.

(** C8, as the code has it. For a diagonal P whose diagonal entries are
    finite, not zero, and have finite reciprocals 1/P[i][i] in 32-bit
    floats, and q = 0, the constructor succeeds and pure Jacobi returns a
    vector of zeros after one step and after every larger number of steps,
    from every finite start vector and from the vector drawn when it is
    finite. *)
Theorem C8_diagonal_system_in_floats (P : 'M[spec_float]_n)
  (q : 'cV[spec_float]_n) :
  (forall i j : 'I_n, i != j -> is_zero (P i j)) ->
  (forall i, [&& is_finite (P i i), ~~ is_zero (P i i)
               & is_finite (fdiv one (P i i))]) ->
  (forall i, is_zero (q i 0)) ->
  exists jacobi : Jacobi n,
    [/\ Jacobi_init P q = Ok jacobi,
        forall (x0 : 'cV[spec_float]_n) (k : nat) (s : rng),
          (forall i, is_finite (x0 i 0)) ->
          exists x, for_range k.+1 (Jacobi_body jacobi) x0 s = Ok (x, s)
                    /\ forall i, is_zero (x i 0)
      & forall (k : nat) (s : rng),
          (forall i, is_finite ((normal s).1 i 0)) ->
          exists x, Jacobi_forward normal jacobi k.+1 s = Ok (x, (normal s).2)
                    /\ forall i, is_zero (x i 0)].
Proof.
move=> dP hP qz.
have fP i : is_finite (P i i) by have /and3P [] := hP i.
have P0 i : ~~ is_zero (P i i) by have /and3P [] := hP i.
have fV i : is_finite (fdiv one (P i i)) by have /and3P [] := hP i.
set R := sub P (diag_embed (diagonal P)).
set Dinv : 'M[spec_float]_n :=
  \matrix_(i, j) if i == j then fdiv one (P i i) else zero.
have Rz i j : is_zero (R i j) by apply: residual_zero.
have Df i j : is_finite (Dinv i j) by rewrite mxE; case: eqP.
pose step (x : 'cV[spec_float]_n) := matmul Dinv (sub q (matmul R x)).
have stepz (x : 'cV[spec_float]_n) (i : 'I_n) :
    (forall i, is_finite (x i 0)) -> is_zero (step x i 0).
  by move=> xf; apply: step_zero.
have loop (x0 : 'cV[spec_float]_n) (k : nat) (s : rng) :
    (forall i, is_finite (x0 i 0)) ->
    for_range k.+1 (Jacobi_body (rng := rng) (MkJacobi R Dinv q)) x0 s
    = Ok (iter k.+1 step x0, s) /\ forall i, is_zero (iter k.+1 step x0 i 0).
  move=> xf; split.
    exact: (for_range_pure (f := fun _ x => step x)
              (g := fun x j => iter j step x)).
  elim: k => [|k IH] i; first exact: stepz.
  by rewrite iterS; apply: stepz => j; apply: is_zero_finite.
exists (MkJacobi R Dinv q); split; first exact: init_diagonal.
- by move=> x0 k s xf; exists (iter k.+1 step x0); exact: loop.
- move=> k s xf; exists (iter k.+1 step (normal s).1).
  have [E Z] := loop (normal s).1 k (normal s).2 xf.
  by rewrite /Jacobi_forward /bind; case: (normal s) E Z.
Qed.

End Float32Diagonal.

Local Open Scope py_scope.

(** ** The theorems on concrete systems *)

Lemma cosQ_bound (t : rat) : -1 <= cosQ t <= 1.
Proof.
have t2 : 0 <= t ^+ 2 by rewrite sqr_ge0.
have d0 : 0 < 1 + t ^+ 2 by lra.
by rewrite /cosQ ler_pdivlMr // ler_pdivrMr //; apply/andP; split; lra.
Qed.

Lemma P_two_diag (i : 'I_2) : P_two i i != 0.
Proof. by rewrite /P_two mxE eqxx. Qed.

Lemma spec_cQ_neq0 (j T : nat) : spec_c cosQ piQ j T 1 3 != 0.
Proof.
apply: lt0r_neq0; apply: spec_c_gt0; [exact: ltr01 | | exact: cosQ_bound].
by rewrite -[3]/(1 + 2%:R) lerDl ler0n.
Qed.



(** C5 at the bounds 1/2 and 3/2. *)
Lemma C5_witness :
  0 < (1 / 2 : rat) + 3 / 2 /\
  omega_opt (1 / 2 : rat) (3 / 2) = Ok (2 / (1 / 2 + 3 / 2)).
Proof.
have l0 : 0 < (1 / 2 : rat) + 3 / 2 by lra.
have [H _] := @C5_constant_sor_factor _ (fun x => x) 2 _ (@normalQ 2)
  (1 / 2) (3 / 2) 1 0 P_two 0 0%N l0.
by split.
Defined.

(** C6 on the system [[0,1],[1,2]]. *)
Lemma C6_witness :
  (exists i, P_zero_corner i i = 0) /\
  Jacobi_init P_zero_corner 0 = Raise RuntimeError.
Proof.
have z : exists i, P_zero_corner i i = 0.
  by exists ord0; rewrite /P_zero_corner mxE.
have [H _ _] := C6_zero_diagonal_raises 0 1 z.
by split.
Defined.

Lemma P_one_diag (i : 'I_1) : P_one i i != 0.
Proof. by rewrite /P_one mxE eqxx. Qed.

(** C10 on the 1 x 1 system, with max_itr = 1. *)
Lemma C10_witness :
  [/\ (0 < 1)%N,
      plot_pure_jacobi (fun x => x) (@normalQ 1) 1 P_one q_one 0%N
      = Ok ([:: norm (fun x => x) (normalQ 1 0).1], (normalQ 1 0).2)
    & ohead [:: norm (fun x : rat => x) (normalQ 1 0).1]
      = Some (norm (fun x => x) (normalQ 1 0).1)].
Proof.
have Hp : plot_pure_jacobi (fun x => x) (@normalQ 1) 1 P_one q_one 0%N
          = Ok ([:: norm (fun x => x) (normalQ 1 0).1], (normalQ 1 0).2).
  exact: (plot_pure_jacobi_curve cosQ piQ (fun x => x) (@normalQ 1) 1 0%N
            (Jacobi_init_ok q_one P_one_diag)).
have [_ _ _ H] := @C10_zero_steps_return_the_draw _ cosQ piQ (fun x => x) _ _
  (@normalQ 1) 1 3 1%N 0 (MkJacobi 0 1%:M 0) (MkSOR_Jacobi 0 1%:M 0 1)
  (MkChebychev_SOR_Jacobi 0 1%:M 0) 4 P_one q_one 0%N _ _ isT (or_introl Hp).
split; [exact: isT | exact: Hp | exact: H].
Defined.



Lemma Jacobi_init_P_one :
  Jacobi_init P_one q_one = Ok (MkJacobi 0 1%:M q_one).
Proof.
have d : is_diag_mx P_one by exact: scalar_mx_is_diag.
rewrite (Jacobi_init_ok q_one P_one_diag) (diag_residual0 d).
congr (Ok (MkJacobi _ _ _)).
have -> : \row_i (P_one i i)^-1 = const_mx 1 :> 'rV[rat]_1.
  by apply/rowP => i; rewrite /P_one !mxE eqxx invr1.
exact: diag_const_mx.
Qed.





(** ** The further properties on concrete systems *)

Lemma omega_opt_1_3 : omega_opt (1 : rat) 3 = Ok (1 / 2).
Proof.
have s0 : (1 : rat) + 3 != 0 by apply: lt0r_neq0; lra.
rewrite omega_optE (negbTE s0).
by congr Ok; apply/eqP.
Qed.


(** X7 on the system [[2,0],[0,2]], with max_itr = 2. *)
Lemma chebyshev_period_zero_witness :
  [/\ (1 < 2)%N, forall i, P_two i i != 0
    & plot_chebychev_sor_jacobi cosQ piQ (fun x => x) (@normalQ 2) 1 3 2 0 0
        P_two 0 0%N
      = Raise ZeroDivisionError].
Proof.
have [_ H] := chebyshev_period_zero cosQ piQ (fun x => x) (@normalQ 2) 1 3 2 0
  (MkChebychev_SOR_Jacobi 0 1%:M 0) P_two 0 0 0%N.
by split; [exact: isT | exact: P_two_diag | exact: (H isT P_two_diag)].
Defined.

(** X10 on the 1 x 1 system, with max_itr = 2 and the bounds 1 and 3. *)
Lemma figure_curves_witness :
  [/\ Jacobi_init P_one q_one = Ok (MkJacobi 0 1%:M q_one),
      omega_opt (1 : rat) 3 = Ok (1 / 2),
      forall j, (j < 8)%N -> spec_c cosQ piQ j 8 1 3 != 0
    & exists curves,
        figure cosQ piQ (fun x => x) (@normalQ 1) 1 3 2 q_one P_one 0%N
        = Ok (curves, rng_after (@normalQ 1) (3 * 2) 0%N)].
Proof.
have c0 j : (j < 8)%N -> spec_c cosQ piQ j 8 1 3 != 0.
  by move=> _; exact: spec_cQ_neq0.
have H := @figure_curves _ cosQ piQ (fun x => x) _ _ (@normalQ 1) 1 3 2 _ _ _ _
  0%N Jacobi_init_P_one omega_opt_1_3 c0.
split; [exact: Jacobi_init_P_one | exact: omega_opt_1_3 | exact: c0 | ].
by eexists; exact: H.
Defined.

(** X11 on the system [[0,1],[1,2]]. *)
Lemma plots_raise_on_zero_diagonal_witness :
  (exists i, P_zero_corner i i = 0) /\
  plot_pure_jacobi (fun x => x) (@normalQ 2) 3 P_zero_corner 0 0%N
  = Raise RuntimeError.
Proof.
have z : exists i, P_zero_corner i i = 0.
  by exists ord0; rewrite /P_zero_corner mxE.
have [H _ _ _] := plots_raise_on_zero_diagonal cosQ piQ (fun x => x)
  (@normalQ 2) 1 3 3 0 0 4 0%N z.
by split; [exact: z | exact: H].
Defined.

(** ** The floating-point properties on data *)

(** C2 at k = 9, T = 8 and the bounds 1 and 3. *)
Lemma C2_witness :
  [/\ Float64.float_of_int (2 * (9 mod 8) + 1) = Ok 3%float,
      Float64.float_of_int (2 * 8) = Ok 16%float,
      (16 =? 0)%float = false,
      is_infinity (Float64.pi * 3 / 16)%float = false
    & is_ok (Float64.Chebychev_gamma cos64 1 3 9 8)].
Proof.
have H1 : Float64.float_of_int (2 * (9 mod 8) + 1) = Ok 3%float by vm_compute.
have H2 : Float64.float_of_int (2 * 8) = Ok 16%float by vm_compute.
have H3 : (16 =? 0)%float = false by vm_compute.
have H4 : is_infinity (Float64.pi * 3 / 16)%float = false by vm_compute.
have [_ H] := C2_schedule_in_floating_point cos64 1 3 9 8.
split; [exact: H1 | exact: H2 | exact: H3 | exact: H4 | ].
by rewrite (H _ _ H1 H2 H3 H4); vm_compute.
Defined.

(** Two inputs with a positive period T and bounds 0 < lmin <= lmax where
    no step is returned. For T = 10^400 the conversion of 2T to a float
    raises OverflowError, whatever the cosine. For lmin = 1e-17, lmax = 1,
    T = 2 10^8 and k = T - 1 the angle is so close to pi that its cosine
    is the float -1.0; then c is 0.5 + 0.5 * (-1.0) = 0.0, because
    1e-17 + 1 rounds to 1, and the division raises ZeroDivisionError. *)
Lemma C2_counterexample :
  [/\ (0 < 10 ^ 400)%pyint, (0 <? 1)%float && (1 <=? 3)%float,
      forall cos : float -> float,
        Float64.Chebychev_gamma cos 1 3 0 (10 ^ 400) = Raise OverflowError,
      (0 < 200000000)%pyint /\ (0 <? 1e-17)%float && (1e-17 <=? 1)%float
    & forall cos : float -> float,
        cos (Float64.pi * 399999999 / 400000000)%float = (-1)%float ->
        Float64.Chebychev_gamma cos 1e-17 1 199999999 200000000
        = Raise ZeroDivisionError].
Proof.
split.
- by [].
- by vm_compute.
- by move=> cos; vm_compute.
- by split; [ | vm_compute].
- move=> cos H; vm_compute in H; vm_compute; rewrite H.
  by vm_compute.
Qed.

(** C8 on the system [[2,0],[0,2]]. *)
Lemma C8_witness :
  [/\ forall i j : 'I_2, i != j -> Float32.is_zero (P_two32 i j),
      forall i, [&& Float32.is_finite (P_two32 i i),
                    ~~ Float32.is_zero (P_two32 i i)
                  & Float32.is_finite (Float32.fdiv Float32.one (P_two32 i i))],
      forall i, Float32.is_zero ((const_mx Float32.zero : 'cV_2) i 0)
    & exists jacobi : Float32.Jacobi 2,
        Float32.Jacobi_init P_two32 (const_mx Float32.zero) = Ok jacobi /\
        forall k s,
          (forall i, Float32.is_finite ((normal32 2 s).1 i 0)) ->
          exists x,
            Float32.Jacobi_forward (@normal32 2) jacobi k.+1 s
            = Ok (x, (normal32 2 s).2)
            /\ forall i, Float32.is_zero (x i 0)].
Proof.
have H1 (i j : 'I_2) : i != j -> Float32.is_zero (P_two32 i j).
  by move=> ij; rewrite mxE (negbTE ij).
have H2 (i : 'I_2) :
    [&& Float32.is_finite (P_two32 i i), ~~ Float32.is_zero (P_two32 i i)
      & Float32.is_finite (Float32.fdiv Float32.one (P_two32 i i))].
  by rewrite mxE eqxx.
have H3 (i : 'I_2) : Float32.is_zero ((const_mx Float32.zero : 'cV_2) i 0).
  by rewrite mxE.
have [jacobi [Hj _ Hf]] :=
  C8_diagonal_system_in_floats (@normal32 2) H1 H2 H3.
by split; [exact: H1 | exact: H2 | exact: H3 | exists jacobi; split].
Defined.

Lemma enum_ord1 : enum 'I_1 = [:: ord0].
Proof. by rewrite enum_ordSl; case: (enum 'I_0) => // [[]]. Qed.

(** P = [[1e-40]] is diagonal with a non-zero diagonal, and q = 0; but
    1/1e-40 is infinite in 32-bit floats, so Dinv is [[inf]], and the first
    step computes inf * 0: pure Jacobi returns NaN after one step, and
    after two, from every finite start vector. *)
Lemma C8_counterexample :
  exists jacobi : Float32.Jacobi 1,
    [/\ Float32.is_finite tiny32 && ~~ Float32.is_zero tiny32,
        Float32.Jacobi_init P_tiny32 (const_mx Float32.zero) = Ok jacobi,
        Float32.J_Dinv jacobi ord0 ord0 = S754_infinity false
      & forall (rng : Type) (normal : rng -> 'cV[spec_float]_1 * rng)
               (s : rng),
          Float32.is_finite ((normal s).1 ord0 ord0) ->
          exists x1 x2 : 'cV[spec_float]_1,
            [/\ Float32.Jacobi_forward normal jacobi 1 s
                = Ok (x1, (normal s).2),
                x1 ord0 ord0 = S754_nan,
                Float32.Jacobi_forward normal jacobi 2 s
                = Ok (x2, (normal s).2)
              & x2 ord0 ord0 = S754_nan]].
Proof.
have P0 (i : 'I_1) : ~~ Float32.is_zero (P_tiny32 i i) by rewrite mxE.
pose R : 'M[spec_float]_1 :=
  Float32.sub P_tiny32 (Float32.diag_embed (Float32.diagonal P_tiny32)).
pose Dinv : 'M[spec_float]_1 :=
  \matrix_(i, j) if i == j then Float32.fdiv Float32.one (P_tiny32 i i)
                 else Float32.zero.
pose q : 'cV[spec_float]_1 := const_mx Float32.zero.
have Rz : R ord0 ord0 = S754_zero false by rewrite !mxE.
have Dv : Dinv ord0 ord0 = S754_infinity false by rewrite !mxE.
have mm (A : 'M[spec_float]_1) (x : 'cV[spec_float]_1) :
    Float32.matmul A x ord0 ord0
    = Float32.fadd Float32.zero (Float32.fmul (A ord0 ord0) (x ord0 ord0)).
  by rewrite mxE enum_ord1.
have step (x : 'cV[spec_float]_1) :
    x ord0 ord0 <> S754_infinity false -> x ord0 ord0 <> S754_infinity true ->
    Float32.matmul Dinv (Float32.sub q (Float32.matmul R x)) ord0 ord0
    = S754_nan.
  move=> i1 i2; rewrite mm Dv mxE mm Rz [q _ _]mxE.
  by case: (x ord0 ord0) i1 i2 => [[]|[]||[] m e] i1 i2 //; first [case: i1 | case: i2].
exists (Float32.MkJacobi R Dinv q); split=> //.
- exact: init_diagonal.
- move=> rng normal s fin.
  set x0 := (normal s).1 in fin *.
  pose f (x : 'cV[spec_float]_1) :=
    Float32.matmul Dinv (Float32.sub q (Float32.matmul R x)).
  have E k : Float32.Jacobi_forward normal (Float32.MkJacobi R Dinv q) k s
             = Ok (iter k f x0, (normal s).2).
    rewrite /Float32.Jacobi_forward /bind /x0; case: (normal s) => y s' /=.
    exact: (for_range_pure (f := fun _ x => f x)
              (g := fun x j => iter j f x)).
  have N1 : f x0 ord0 ord0 = S754_nan.
    by apply: step; case: (x0 ord0 ord0) fin.
  exists (f x0), (f (f x0)); split; [exact: E | exact: N1 | exact: E | ].
  by apply: step; rewrite N1.
Qed.
